(** * rust-collections: the standard containers used by [main] (src/main.rs)

    [main] exercises three containers of the Rust standard library:
    [Vec<T>], [String]/[&str] and [HashMap<K, V>].  This file embeds the
    operations [main] calls, as the standard library implements them, and
    replays the fragments of [main] that use them.

    - a [Vec<T>] is its element list [list T] (indices are dense);
    - a [String] or [&str] is its UTF-8 byte sequence, a [list Z] of [u8]
      values;
    - a [HashMap<K, V>] is a finite map [gmap K V] (its iteration order is
      arbitrary and not modelled);
    - a panic is the error side of [result]. *)

From Stdlib Require Import ZArith Lia.
From Stdlib Require Import Strings.String Strings.Ascii.
From stdpp Require Import base list gmap strings.

Open Scope Z_scope.

(** Fatal conditions: the panics of [Index for Vec] and of [Index for str]. *)
Inductive panic :=
  | OutOfRange        (** index out of bounds: the len is .. but the index is .. *)
  | InvalidBoundary   (** byte index is not a char boundary *)
  | Overflow.         (** attempt to add with overflow (debug build) *)

Inductive result (A : Type) :=
  | Ok (a : A)
  | Panic (p : panic).
Arguments Ok {A} a.
Arguments Panic {A} p.

(* ------------------------------------------------------------------ *)
(** ** [Vec<T>] *)

Module Vec.

(** [Vec::new]: the empty vector. *)
Definition new {T} : list T := [].

(** [Vec::push]: append at the end. *)
Definition push {T} (v : list T) (x : T) : list T := v ++ [x].

Definition len {T} (v : list T) : nat := length v.

(** [<Vec<T> as Index<usize>>::index], i.e. [&v[i]]: panics when
    [i >= len]. *)
Definition index {T} (v : list T) (i : nat) : result T :=
  match v !! i with
  | Some x => Ok x
  | None => Panic OutOfRange
  end.

(** [Vec::get]: [None] out of bounds. *)
Definition get {T} (v : list T) (i : nat) : option T := v !! i.

(** [for i in &v]: the elements yielded by the shared iterator, in order. *)
Fixpoint iter {T} (v : list T) : list T :=
  match v with
  | [] => []
  | x :: v' => x :: iter v'
  end.

(** [for i in &mut v { body }] where the body updates [*i] through a
    fallible step (it may panic).  The loop visits the slots in order,
    writes each one in place, and stops at the first panic. *)
Fixpoint iter_mut_update {T} (body : T -> result T) (v : list T)
    : result (list T) :=
  match v with
  | [] => Ok []
  | x :: v' =>
      match body x with
      | Panic p => Panic p
      | Ok x' =>
          match iter_mut_update body v' with
          | Panic p => Panic p
          | Ok v'' => Ok (x' :: v'')
          end
      end
  end.

(** The vector obtained by pushing [xs] one by one onto [Vec::new()]. *)
Definition push_all {T} (xs : list T) : list T := fold_left push xs new.

End Vec.

(** [i32] and its [+=] with the debug-build overflow check. *)
Definition i32_min : Z := - 2 ^ 31.
Definition i32_max : Z := 2 ^ 31 - 1.

Definition i32_add (a b : Z) : result Z :=
  let r := a + b in
  if (i32_min <=? r) && (r <=? i32_max) then Ok r else Panic Overflow.

(** The body of [for i in &mut v4 { *i += 50; ... }] (lines 82-85). *)
Definition add_50 (i : Z) : result Z := i32_add i 50.

(** [let mut v4 = vec![100, 32, 57];] followed by the loop. *)
Definition v4_after_loop : result (list Z) :=
  Vec.iter_mut_update add_50 [100; 32; 57].

(* ------------------------------------------------------------------ *)
(** ** [str] and [String]: UTF-8 byte sequences *)

Module Utf8.

(** A [char] is a Unicode scalar value. *)
Definition is_scalar (c : Z) : bool :=
  (0 <=? c) && (c <? 0x110000) && negb ((0xD800 <=? c) && (c <=? 0xDFFF)).

Definition TAG_CONT : Z := 0x80.
Definition TAG_TWO_B : Z := 0xC0.
Definition TAG_THREE_B : Z := 0xE0.
Definition TAG_FOUR_B : Z := 0xF0.
Definition MAX_ONE_B : Z := 0x80.
Definition MAX_TWO_B : Z := 0x800.
Definition MAX_THREE_B : Z := 0x10000.
Definition CONT_MASK : Z := 0x3F.

(** [char::len_utf8]. *)
Definition len_utf8 (code : Z) : nat :=
  if code <? MAX_ONE_B then 1%nat
  else if code <? MAX_TWO_B then 2%nat
  else if code <? MAX_THREE_B then 3%nat
  else 4%nat.

(** [encode_utf8_raw]: the bytes of one [char]. *)
Definition encode_utf8 (code : Z) : list Z :=
  match len_utf8 code with
  | 1%nat => [code]
  | 2%nat =>
      [Z.lor (Z.land (Z.shiftr code 6) 0x1F) TAG_TWO_B;
       Z.lor (Z.land code 0x3F) TAG_CONT]
  | 3%nat =>
      [Z.lor (Z.land (Z.shiftr code 12) 0x0F) TAG_THREE_B;
       Z.lor (Z.land (Z.shiftr code 6) 0x3F) TAG_CONT;
       Z.lor (Z.land code 0x3F) TAG_CONT]
  | _ =>
      [Z.lor (Z.land (Z.shiftr code 18) 0x07) TAG_FOUR_B;
       Z.lor (Z.land (Z.shiftr code 12) 0x3F) TAG_CONT;
       Z.lor (Z.land (Z.shiftr code 6) 0x3F) TAG_CONT;
       Z.lor (Z.land code 0x3F) TAG_CONT]
  end.

(** The UTF-8 bytes of a sequence of [char]s ([String::from_iter]). *)
Fixpoint str_of_chars (cs : list Z) : list Z :=
  match cs with
  | [] => []
  | c :: cs' => encode_utf8 c ++ str_of_chars cs'
  end.

(** [utf8_first_byte] and [utf8_acc_cont_byte] of [core::str::validations]. *)
Definition utf8_first_byte (byte width : Z) : Z :=
  Z.land byte (Z.shiftr 0x7F width).
Definition utf8_acc_cont_byte (ch byte : Z) : Z :=
  Z.lor (Z.shiftl ch 6) (Z.land byte CONT_MASK).

(** [str::chars]: repeated [next_code_point].  A [str] is valid UTF-8,
    so the bytes read with [unwrap_unchecked] are always there; the
    truncated cases, unreachable on a [str], end the iteration. *)
Fixpoint chars (s : list Z) : list Z :=
  match s with
  | [] => []
  | x :: s1 =>
      if x <? 128 then x :: chars s1 else
      let init := utf8_first_byte x 2 in
      match s1 with
      | [] => []
      | y :: s2 =>
          if x >=? 0xE0 then
            match s2 with
            | [] => []
            | z :: s3 =>
                let y_z := utf8_acc_cont_byte (Z.land y CONT_MASK) z in
                if x >=? 0xF0 then
                  match s3 with
                  | [] => []
                  | w :: s4 =>
                      Z.lor (Z.shiftl (Z.land init 7) 18)
                            (utf8_acc_cont_byte y_z w) :: chars s4
                  end
                else Z.lor (Z.shiftl init 12) y_z :: chars s3
            end
          else utf8_acc_cont_byte init y :: chars s2
      end
  end.

(** [str::bytes]: the raw bytes, one by one. *)
Definition bytes (s : list Z) : list Z := s.

(** [u8 as i8]. *)
Definition u8_as_i8 (b : Z) : Z := if b <? 128 then b else b - 256.

(** [str::is_char_boundary]. *)
Definition is_char_boundary (s : list Z) (index : nat) : bool :=
  if (index =? 0)%nat then true
  else if (length s <=? index)%nat then (index =? length s)%nat
  else match s !! index with
       | Some b => u8_as_i8 b >=? -0x40
       | None => false
       end.

(** [&s[start..end_]] ([<Range<usize> as SliceIndex<str>>::index]): the
    bytes [start..end_] when [start <= end_] and both ends are char
    boundaries, otherwise the panic of [slice_error_fail]. *)
Definition index_range (s : list Z) (start end_ : nat) : result (list Z) :=
  if (start <=? end_)%nat && is_char_boundary s start
                          && is_char_boundary s end_
  then Ok (take (end_ - start) (drop start s))
  else Panic InvalidBoundary.

(** A string literal of the source: its UTF-8 bytes (Rocq string literals
    hold the bytes of their UTF-8 text). *)
Definition lit (s : string) : list Z :=
  map (fun a => Z.of_nat (nat_of_ascii a)) (list_ascii_of_string s).

(** [String::push_str]. *)
Definition push_str (self other : list Z) : list Z := self ++ other.

(** [impl Add<&str> for String]: [self.push_str(other); self]. *)
Definition string_add (self : list Z) (other : list Z) : list Z :=
  push_str self other.

(** [String::len]: the length in bytes. *)
Definition len (s : list Z) : nat := length s.

(** Every [char] of a sequence is a Unicode scalar value. *)
Definition valid (cs : list Z) : bool := forallb is_scalar cs.

End Utf8.

(* ------------------------------------------------------------------ *)
(** ** [HashMap<K, V>] *)

Module HashMap.
Section HashMap.
Context {K V : Type} `{Countable K}.

(** [HashMap::new]. *)
Definition new : gmap K V := ∅.

(** [HashMap::insert]: binds [k] to [v] and hands back the previous
    value, if any. *)
Definition insert (m : gmap K V) (k : K) (v : V) : option V * gmap K V :=
  (m !! k, <[k := v]> m).

(** [HashMap::get]. *)
Definition get (m : gmap K V) (k : K) : option V := m !! k.

(** [m.entry(k).or_insert(default)]: the value the returned [&mut V]
    points to, and the map afterwards ([Entry::Occupied] keeps the
    value, [Entry::Vacant] inserts [default]). *)
Definition entry_or_insert (m : gmap K V) (k : K) (default : V)
    : V * gmap K V :=
  match m !! k with
  | Some v => (v, m)
  | None => (default, <[k := default]> m)
  end.
End HashMap.
End HashMap.

(** The map of lines 182-230 of [main]: [HashMap<String, String>]. *)
Definition map_after_line (n : nat) : gmap (list Z) (list Z) :=
  let L := Utf8.lit in
  let m := HashMap.new in
  let m := snd (HashMap.insert m (L "Favorite Color"%string) (L "Blue"%string)) in
  let m := snd (HashMap.insert m (L "Second Favorite Color"%string) (L "Green"%string)) in
  if (n <? 211)%nat then m else
  let m := snd (HashMap.insert m (L "Favorite Color"%string) (L "Green"%string)) in
  if (n <? 219)%nat then m else
  let m := snd (HashMap.insert m (L "Favorite Color"%string) (L "Pink"%string)) in
  if (n <? 223)%nat then m else
  let m := snd (HashMap.insert m (L "Blue"%string) (L "50"%string)) in
  if (n <? 229)%nat then m else
  let m := snd (HashMap.entry_or_insert m (L "Yellow"%string) (L "10"%string)) in
  if (n <? 230)%nat then m else
  snd (HashMap.entry_or_insert m (L "Blue"%string) (L "10"%string)).

(* ------------------------------------------------------------------ *)
(** ** Locals of [main] holding [String]s, with moves

    A binding that has been moved out of is removed: naming it again is a
    use after move, which the borrow checker rejects ([None]). *)

Module Locals.

Abbreviation env := (gmap string (list Z)).

Inductive stmt :=
  | LetFrom (x : string) (s : list Z)   (** [let x = String::from("..")] or [let x = ".."] *)
  | PushStr (x y : string)             (** [x.push_str(y)]: [y] is borrowed *)
  | LetAdd (z x y : string).           (** [let z = x + &y]: [x] is moved *)

Definition exec (st : stmt) (e : env) : option env :=
  match st with
  | LetFrom x s => Some (<[x := s]> e)
  | PushStr x y =>
      match e !! x, e !! y with
      | Some a, Some b => Some (<[x := Utf8.push_str a b]> e)
      | _, _ => None
      end
  | LetAdd z x y =>
      match e !! x, e !! y with
      | Some a, Some b => Some (<[z := Utf8.string_add a b]> (delete x e))
      | _, _ => None
      end
  end.

Fixpoint run (sts : list stmt) (e : env) : option env :=
  match sts with
  | [] => Some e
  | st :: sts' =>
      match exec st e with
      | Some e' => run sts' e'
      | None => None
      end
  end.

(** Lines 106-110. *)
Definition push_str_fragment : list stmt :=
  [LetFrom "s1" (Utf8.lit "foo"); LetFrom "s2" (Utf8.lit "bar");
   PushStr "s1" "s2"].

(** Lines 116-120. *)
Definition add_fragment : list stmt :=
  [LetFrom "s3" (Utf8.lit "Hello, "); LetFrom "s4" (Utf8.lit "world!");
   LetAdd "s5" "s3" "s4"].

End Locals.

(* ------------------------------------------------------------------ *)
(** ** Values of [main] *)

(** [let v = vec![1, 2, 3, 4, 5];] (line 44). *)
Definition v : list Z := [1; 2; 3; 4; 5].

(** [let hello = "Здравствуйте";] (line 146). *)
Definition hello : list Z := Utf8.lit "Здравствуйте".

(** [let s9 = &hello[0..4];] (line 151). *)
Definition s9 : result (list Z) := Utf8.index_range hello 0 4.

(** The literal iterated on lines 158 and 165. *)
Definition namaste : list Z := Utf8.lit "नमस्ते".

(** One iteration of [idx += 1] on the [i32] counter [idx] (its type is
    the default [i32]), with the debug-build overflow check; a panic ends
    the loop. *)
Definition count_step (acc : result Z) (_ : Z) : result Z :=
  match acc with
  | Ok idx => i32_add idx 1
  | Panic p => Panic p
  end.

(** [let mut idx = 0; for _ in it { idx += 1; ... }]: the final counter. *)
Definition count_loop (it : list Z) : result Z := fold_left count_step it (Ok 0).

(** [char_idx] after the loop of lines 157-161 and [byte_idx] after the
    loop of lines 164-168. *)
Definition char_idx : result Z := count_loop (Utf8.chars namaste).
Definition byte_idx : result Z := count_loop (Utf8.bytes namaste).

(** [format!("{}-{}-{}", s6, s7, s8)] (line 130): the [Display] of each
    [String] argument is its text, written between the literal pieces of
    the format string; the arguments are only borrowed. *)
Definition format3 (s6 s7 s8 : list Z) : list Z :=
  s6 ++ Utf8.lit "-" ++ s7 ++ Utf8.lit "-" ++ s8.

(* ================================================================== *)
(** * Proofs *)

(** ** Bit arithmetic of the UTF-8 encoder and decoder *)

Module Utf8Facts.
Import Utf8.

Lemma lor_high_low (h a : Z) (n : Z) :
0 <= n -> 0 <= h -> 0 <= a < 2 ^ n -> Z.lor (h * 2 ^ n) a = h * 2 ^ n + a.
Proof.
intros Hn Hh Ha.
assert (Hd : Z.land (h * 2 ^ n) a = 0).
{ apply Z.bits_inj'; intros i Hi.
  rewrite Z.land_spec, Z.bits_0.
  destruct (Z.lt_ge_cases i n) as [Hlt | Hge].
  - rewrite Z.mul_pow2_bits_low by lia. reflexivity.
  - destruct (Z.eq_dec a 0) as [-> | Ha0].
    + rewrite Z.bits_0. apply andb_false_r.
    + assert (Hl : Z.log2 a < n) by (apply Z.log2_lt_pow2; lia).
      rewrite (Z.bits_above_log2 a i) by lia. apply andb_false_r. }
rewrite <- Z.lxor_lor by exact Hd.
rewrite <- Z.add_nocarry_lxor by exact Hd. reflexivity.
Qed.

Lemma lor_low_high (a h : Z) (n : Z) :
0 <= n -> 0 <= h -> 0 <= a < 2 ^ n -> Z.lor a (h * 2 ^ n) = a + h * 2 ^ n.
Proof. intros. rewrite Z.lor_comm, lor_high_low by lia. lia. Qed.

Lemma land_mask (x : Z) (k : Z) : 0 <= k -> Z.land x (Z.ones k) = x mod 2 ^ k.
Proof. intros. apply Z.land_ones; lia. Qed.

Ltac to_arith :=
repeat first
  [ rewrite Z.shiftr_div_pow2 by lia
  | rewrite Z.shiftl_mul_pow2 by lia
  | change 0x1F with (Z.ones 5) ; rewrite land_mask by lia
  | change 0x3F with (Z.ones 6) ; rewrite land_mask by lia
  | change 0x0F with (Z.ones 4) ; rewrite land_mask by lia
  | change 0x07 with (Z.ones 3) ; rewrite land_mask by lia ].

Ltac cons_eq := repeat apply (f_equal2 cons); try reflexivity.

Lemma encode_2 c : 0x80 <= c < 0x800 ->
encode_utf8 c = [c / 64 + 0xC0; c mod 64 + 0x80].
Proof.
intros Hc. unfold encode_utf8, len_utf8.
rewrite (proj2 (Z.ltb_ge c _)) by (unfold MAX_ONE_B; lia).
rewrite (proj2 (Z.ltb_lt c _)) by (unfold MAX_TWO_B; lia).
unfold TAG_TWO_B, TAG_CONT. to_arith.
change 0xC0 with (6 * 2 ^ 5). change 0x80 with (2 * 2 ^ 6).
rewrite !lor_low_high by (Z.div_mod_to_equations; lia).
repeat apply (f_equal2 cons); try reflexivity; Z.div_mod_to_equations; lia.
Qed.

Lemma encode_1 c : 0 <= c < 0x80 -> encode_utf8 c = [c].
Proof.
intros Hc. unfold encode_utf8, len_utf8.
rewrite (proj2 (Z.ltb_lt c _)) by (unfold MAX_ONE_B; lia). reflexivity.
Qed.

Lemma encode_3 c : 0x800 <= c < 0x10000 ->
encode_utf8 c = [c / 4096 + 0xE0; (c / 64) mod 64 + 0x80; c mod 64 + 0x80].
Proof.
intros Hc. unfold encode_utf8, len_utf8.
rewrite (proj2 (Z.ltb_ge c _)) by (unfold MAX_ONE_B; lia).
rewrite (proj2 (Z.ltb_ge c _)) by (unfold MAX_TWO_B; lia).
rewrite (proj2 (Z.ltb_lt c _)) by (unfold MAX_THREE_B; lia).
unfold TAG_THREE_B, TAG_CONT. to_arith.
change 0xE0 with (14 * 2 ^ 4). change 0x80 with (2 * 2 ^ 6).
rewrite !lor_low_high by (Z.div_mod_to_equations; lia).
cons_eq; Z.div_mod_to_equations; lia.
Qed.

Lemma encode_4 c : 0x10000 <= c < 0x110000 ->
encode_utf8 c = [c / 262144 + 0xF0; (c / 4096) mod 64 + 0x80;
                 (c / 64) mod 64 + 0x80; c mod 64 + 0x80].
Proof.
intros Hc. unfold encode_utf8, len_utf8.
rewrite (proj2 (Z.ltb_ge c _)) by (unfold MAX_ONE_B; lia).
rewrite (proj2 (Z.ltb_ge c _)) by (unfold MAX_TWO_B; lia).
rewrite (proj2 (Z.ltb_ge c _)) by (unfold MAX_THREE_B; lia).
unfold TAG_FOUR_B, TAG_CONT. to_arith.
change 0xF0 with (30 * 2 ^ 3). change 0x80 with (2 * 2 ^ 6).
rewrite !lor_low_high by (Z.div_mod_to_equations; lia).
cons_eq; Z.div_mod_to_equations; lia.
Qed.

Lemma acc_cont ch b : 0 <= ch -> 0x80 <= b < 0xC0 ->
utf8_acc_cont_byte ch b = ch * 64 + (b - 0x80).
Proof.
intros Hch Hb. unfold utf8_acc_cont_byte, CONT_MASK. to_arith.
change (2 ^ 6) with 64 at 1.
change 64 with (2 ^ 6) at 1.
rewrite lor_high_low by (Z.div_mod_to_equations; lia).
Z.div_mod_to_equations; lia.
Qed.

Ltac zsolve := Z.div_mod_to_equations; lia.

Ltac zcmp :=
repeat match goal with
| |- context [?a >=? ?b] => rewrite (Z.geb_leb a b)
| |- context [?a <? ?b] =>
    first [ rewrite (proj2 (Z.ltb_lt a b)) by zsolve
          | rewrite (proj2 (Z.ltb_ge a b)) by zsolve ]
| |- context [?a <=? ?b] =>
    first [ rewrite (proj2 (Z.leb_le a b)) by zsolve
          | rewrite (proj2 (Z.leb_gt a b)) by zsolve ]
end.

Lemma first_byte_2 x : 0 <= x -> utf8_first_byte x 2 = x mod 32.
Proof.
intros. unfold utf8_first_byte.
change (Z.shiftr 0x7F 2) with (Z.ones 5). rewrite land_mask by lia. reflexivity.
Qed.

Lemma chars_encode c rest : 0 <= c < 0x110000 ->
chars (encode_utf8 c ++ rest) = c :: chars rest.
Proof.
intros Hc.
destruct (Z.lt_ge_cases c 0x80) as [H1 | H1].
{ rewrite encode_1 by lia. cbn [app chars]. zcmp. reflexivity. }
destruct (Z.lt_ge_cases c 0x800) as [H2 | H2].
{ rewrite encode_2 by lia. cbn [app chars]. zcmp.
  rewrite first_byte_2, acc_cont by zsolve.
  f_equal. zsolve. }
destruct (Z.lt_ge_cases c 0x10000) as [H3 | H3].
{ rewrite encode_3 by lia. cbn [app chars]. zcmp.
  rewrite first_byte_2 by zsolve.
  unfold CONT_MASK at 1. change 0x3F with (Z.ones 6) at 1.
  rewrite land_mask by lia.
  rewrite !acc_cont by zsolve.
  rewrite Z.shiftl_mul_pow2 by lia.
  rewrite lor_high_low by zsolve.
  f_equal. zsolve. }
{ rewrite encode_4 by lia. cbn [app chars]. zcmp.
  rewrite first_byte_2 by zsolve.
  unfold CONT_MASK at 1. change 0x3F with (Z.ones 6) at 1.
  rewrite land_mask by lia.
  change 7 with (Z.ones 3). rewrite land_mask by lia.
  rewrite (acc_cont (((c / 4096) mod 64 + 128) mod 2 ^ 6)) by zsolve.
  rewrite acc_cont by zsolve.
  rewrite Z.shiftl_mul_pow2 by lia.
  rewrite lor_high_low by zsolve.
  f_equal. zsolve. }
Qed.

Lemma valid_Forall cs : valid cs = true -> Forall (fun c => is_scalar c = true) cs.
Proof. unfold valid. intros H. apply Forall_forall. intros c Hc. rewrite forallb_forall in H. apply H. apply list_elem_of_In. exact Hc. Qed.

Lemma is_scalar_range c : is_scalar c = true -> 0 <= c < 0x110000.
Proof. unfold is_scalar. intros H. apply andb_prop in H as [H _].
apply andb_prop in H as [H1 H2]. apply Z.leb_le in H1. apply Z.ltb_lt in H2. lia. Qed.

Lemma chars_str_of_chars cs : valid cs = true -> chars (str_of_chars cs) = cs.
Proof.
intros Hv. apply valid_Forall in Hv. induction Hv as [|c cs Hc Hcs IH]; [reflexivity|].
cbn [str_of_chars]. rewrite chars_encode by (apply is_scalar_range; exact Hc).
rewrite IH. reflexivity.
Qed.

Lemma str_of_chars_app p q : str_of_chars (p ++ q) = str_of_chars p ++ str_of_chars q.
Proof. induction p as [|c p IH]; [reflexivity|]. cbn. rewrite IH, app_assoc. reflexivity. Qed.

Lemma length_encode c : length (encode_utf8 c) = len_utf8 c.
Proof. unfold encode_utf8, len_utf8. repeat destruct (_ <? _); reflexivity. Qed.

Lemma len_utf8_pos c : (1 <= len_utf8 c)%nat.
Proof. unfold len_utf8. repeat destruct (_ <? _); lia. Qed.

Lemma len_utf8_multi c : 0x80 <= c -> (2 <= len_utf8 c)%nat.
Proof.
intros. unfold len_utf8, MAX_ONE_B.
rewrite (proj2 (Z.ltb_ge c _)) by lia. repeat destruct (_ <? _); lia.
Qed.

Lemma length_str_of_chars_ge cs : (length cs <= length (str_of_chars cs))%nat.
Proof.
induction cs as [|c cs IH]; [cbn; lia|]. cbn [str_of_chars].
rewrite length_app, length_encode. cbn [length]. pose proof (len_utf8_pos c). lia.
Qed.

Lemma length_str_of_chars_gt cs : Exists (fun c => 0x80 <= c) cs ->
(length cs < length (str_of_chars cs))%nat.
Proof.
induction 1 as [c cs Hc | c cs _ IH]; cbn [str_of_chars length];
  rewrite length_app, length_encode.
- pose proof (len_utf8_multi c Hc). pose proof (length_str_of_chars_ge cs). lia.
- pose proof (len_utf8_pos c). lia.
Qed.

Lemma encode_cont c k : 0 <= c < 0x110000 ->
(0 < k < length (encode_utf8 c))%nat ->
exists b, encode_utf8 c !! k = Some b /\ 0x80 <= b < 0xC0.
Proof.
intros Hc Hk.
destruct (Z.lt_ge_cases c 0x80).
{ rewrite encode_1 in * by lia. cbn in Hk. lia. }
destruct (Z.lt_ge_cases c 0x800).
{ rewrite encode_2 in * by lia. cbn in Hk.
  destruct k as [|[|k]]; try lia. eexists; split; [reflexivity | zsolve]. }
destruct (Z.lt_ge_cases c 0x10000).
{ rewrite encode_3 in * by lia. cbn in Hk.
  destruct k as [|[|[|k]]]; try lia; eexists; split; (reflexivity || zsolve). }
{ rewrite encode_4 in * by lia. cbn in Hk.
  destruct k as [|[|[|[|k]]]]; try lia; eexists; split; (reflexivity || zsolve). }
Qed.

Lemma boundary_app (u w : list Z) k :
is_char_boundary (u ++ w) k = true -> (length u <= k)%nat ->
is_char_boundary w (k - length u) = true.
Proof.
unfold is_char_boundary. rewrite length_app. intros H Hle.
destruct (decide (k = length u)) as [-> | Hne].
{ rewrite Nat.sub_diag. reflexivity. }
rewrite (proj2 (Nat.eqb_neq (k - length u) 0)) by lia.
rewrite (proj2 (Nat.eqb_neq k 0)) in H by lia.
destruct (length u + length w <=? k)%nat eqn:E.
- apply Nat.leb_le in E. apply Nat.eqb_eq in H.
  rewrite (proj2 (Nat.leb_le _ _)) by lia. apply Nat.eqb_eq. lia.
- apply Nat.leb_gt in E. rewrite (proj2 (Nat.leb_gt _ _)) by lia.
  rewrite lookup_app_r in H by lia. exact H.
Qed.

Lemma boundary_decomp cs k : Forall (fun c => is_scalar c = true) cs ->
is_char_boundary (str_of_chars cs) k = true ->
exists p q, cs = p ++ q /\ k = length (str_of_chars p).
Proof.
intros Hv. revert k.
induction Hv as [|c cs Hc Hcs IH]; intros k Hk.
{ exists [], []. split; [reflexivity|].
  destruct k as [|k]; [reflexivity|]. discriminate Hk. }
destruct (decide (k = 0%nat)) as [-> | Hk0].
{ exists [], (c :: cs). split; reflexivity. }
cbn [str_of_chars] in Hk.
destruct (decide (length (encode_utf8 c) <= k)%nat) as [Hle | Hgt].
- apply boundary_app in Hk; [|exact Hle].
  destruct (IH _ Hk) as (p & q & -> & Hq).
  exists (c :: p), q. split; [reflexivity|].
  cbn [str_of_chars]. rewrite length_app. lia.
- exfalso. apply is_scalar_range in Hc.
  destruct (encode_cont c k Hc) as (b & Hb & Hr); [lia|].
  unfold is_char_boundary in Hk.
  rewrite (proj2 (Nat.eqb_neq k 0)) in Hk by lia.
  rewrite length_app, (proj2 (Nat.leb_gt _ _)) in Hk by lia.
  rewrite lookup_app_l in Hk by lia. rewrite Hb in Hk.
  unfold u8_as_i8 in Hk. rewrite (proj2 (Z.ltb_ge b 128)) in Hk by lia.
  apply Z.geb_le in Hk. lia.
Qed.

Lemma index_range_whole_chars cs (a b : nat) t : Forall (fun c => is_scalar c = true) cs ->
index_range (str_of_chars cs) a b = Ok t ->
exists p m q, cs = p ++ m ++ q /\ t = str_of_chars m.
Proof.
intros Hv H. unfold index_range in H.
destruct ((a <=? b)%nat && is_char_boundary (str_of_chars cs) a
          && is_char_boundary (str_of_chars cs) b) eqn:E; [|discriminate].
injection H as <-.
apply andb_prop in E as [E Hb]. apply andb_prop in E as [Hab Ha].
apply Nat.leb_le in Hab.
destruct (boundary_decomp cs a Hv Ha) as (p & r & -> & ->).
rewrite str_of_chars_app in Hb.
apply boundary_app in Hb; [|exact Hab].
apply Forall_app in Hv as [_ Hr].
destruct (boundary_decomp r _ Hr Hb) as (m & q & -> & Hm).
exists p, m, q. split; [reflexivity|].
rewrite str_of_chars_app, drop_app_length, Hm, str_of_chars_app, take_app_length.
reflexivity.
Qed.

End Utf8Facts.

(** ** Facts about [Vec] *)

Module VecFacts.

Lemma push_all_app {T} (acc xs : list T) :
  fold_left Vec.push xs acc = acc ++ xs.
Proof.
  revert acc. induction xs as [|x xs IH]; intros acc; cbn.
  - rewrite app_nil_r. reflexivity.
  - rewrite IH. unfold Vec.push. rewrite <- app_assoc. reflexivity.
Qed.

Lemma iter_id {T} (l : list T) : Vec.iter l = l.
Proof. induction l as [|x l IH]; cbn; [reflexivity | rewrite IH; reflexivity]. Qed.

Lemma count_fold_panic (it : list Z) (p : panic) :
  fold_left count_step it (Panic p) = Panic p.
Proof. induction it as [|x it IH]; cbn; [reflexivity | exact IH]. Qed.

Lemma count_fold_acc (it : list Z) (k : Z) :
  0 <= k <= i32_max ->
  fold_left count_step it (Ok k) =
  if k + Z.of_nat (length it) <=? i32_max
  then Ok (k + Z.of_nat (length it)) else Panic Overflow.
Proof.
  revert k. induction it as [|x it IH]; intros k Hk.
  - cbn [fold_left length]. rewrite Z.add_0_r, (proj2 (Z.leb_le _ _)) by lia.
    reflexivity.
  - cbn [fold_left length]. unfold count_step at 2, i32_add.
    unfold i32_max, i32_min in *. change (2 ^ 31) with 2147483648 in *.
    rewrite (proj2 (Z.leb_le _ (k + 1))) by lia. cbn [andb].
    destruct (Z.leb_spec (k + 1) (2147483648 - 1)) as [Hle | Hgt].
    + rewrite IH by lia.
      replace (k + 1 + Z.of_nat (length it)) with (k + Z.of_nat (S (length it))) by lia.
      reflexivity.
    + rewrite count_fold_panic, (proj2 (Z.leb_gt _ _)) by lia. reflexivity.
Qed.

Lemma count_loop_spec (it : list Z) :
  count_loop it =
  if Z.of_nat (length it) <=? i32_max
  then Ok (Z.of_nat (length it)) else Panic Overflow.
Proof.
  unfold count_loop. rewrite count_fold_acc; [reflexivity|].
  unfold i32_max. lia.
Qed.

End VecFacts.

(* ================================================================== *)
(** * The claims *)

Import Utf8 Utf8Facts VecFacts.

(** C1: [entry(k).or_insert(default)] returns the value now bound to [k];
    when [k] is present that is the existing value and the map is left as
    it is, when [k] is absent [default] is inserted.  No existing binding
    is ever changed (the old map is included in the new one).  In
    particular, on [{"Blue": "50"}], [entry("Blue").or_insert("10")]
    leaves ["Blue"] at ["50"], as it does in [main] (line 230). *)
Theorem entry_or_insert_never_overwrites
    (m : gmap (list Z) (list Z)) (k d : list Z) :
  (let '(r, m') := HashMap.entry_or_insert m k d in
   m' !! k = Some r /\ m ⊆ m' /\
   match m !! k with
   | Some old => r = old /\ m' = m
   | None => r = d /\ m' = <[k := d]> m
   end) /\
  (let '(r, m') := HashMap.entry_or_insert {[lit "Blue" := lit "50"]}
                     (lit "Blue") (lit "10") in
   r = lit "50" /\ HashMap.get m' (lit "Blue") = Some (lit "50")) /\
  HashMap.get (map_after_line 233) (lit "Blue") = Some (lit "50").
Proof.
  split; [|split; [vm_compute; split; reflexivity | vm_compute; reflexivity]].
  unfold HashMap.entry_or_insert.
  destruct (m !! k) as [old|] eqn:E.
  - split; [exact E|]. split; [reflexivity|]. split; reflexivity.
  - split; [apply lookup_insert_eq|]. split; [|split; reflexivity].
    apply insert_subseteq. exact E.
Qed.

(** C2: [insert(k, v)] returns the previous value of [k] ([None] when it
    was absent), binds [k] to [v] whether or not it was present, and leaves
    the other keys alone.  In particular, on [{"Favorite Color": "Blue"}],
    [insert("Favorite Color", "Green")] makes [get("Favorite Color")]
    equal [Some("Green")], as it does in [main] (line 213). *)
Theorem insert_overwrites
    (m : gmap (list Z) (list Z)) (k v : list Z) :
  (let '(old, m') := HashMap.insert m k v in
   old = m !! k /\ HashMap.get m' k = Some v /\ delete k m' = delete k m) /\
  (let '(old, m') := HashMap.insert {[lit "Favorite Color" := lit "Blue"]}
                       (lit "Favorite Color") (lit "Green") in
   old = Some (lit "Blue") /\
   HashMap.get m' (lit "Favorite Color") = Some (lit "Green")) /\
  HashMap.get (map_after_line 213) (lit "Favorite Color") = Some (lit "Green").
Proof.
  split; [|split; [vm_compute; split; reflexivity | vm_compute; reflexivity]].
  unfold HashMap.insert, HashMap.get.
  split; [reflexivity|]. split; [apply lookup_insert_eq|].
  apply delete_insert_eq.
Qed.

(** C3: below the length, [&v[i]] and [v.get(i)] give the same element. *)
Theorem index_agrees_with_get {T} (s : list T) (i : nat) :
  (i < Vec.len s)%nat ->
  exists x, Vec.index s i = Ok x /\ Vec.get s i = Some x.
Proof.
  unfold Vec.len, Vec.index, Vec.get. intros Hi.
  destruct (lookup_lt_is_Some_2 s i Hi) as [x Hx].
  exists x. rewrite Hx. split; reflexivity.
Qed.

Lemma index_agrees_with_get_witness :
  (2 < Vec.len v)%nat /\
  exists x, Vec.index v 2 = Ok x /\ Vec.get v 2 = Some x.
Proof.
  split; [vm_compute; lia | apply (index_agrees_with_get v 2); vm_compute; lia].
Defined.

(** C4: at or past the length, [v.get(i)] is [None] while [&v[i]] panics
    with an out-of-range index. *)
Theorem get_none_index_panics {T} (s : list T) (i : nat) :
  (Vec.len s <= i)%nat ->
  Vec.get s i = None /\ Vec.index s i = Panic OutOfRange.
Proof.
  unfold Vec.len, Vec.index, Vec.get. intros Hi.
  rewrite (lookup_ge_None_2 s i Hi). split; reflexivity.
Qed.

Lemma get_none_index_panics_witness :
  (Vec.len v <= 100)%nat /\
  Vec.get v 100 = None /\ Vec.index v 100 = Panic OutOfRange.
Proof.
  split; [vm_compute; lia | apply (get_none_index_panics v 100); vm_compute; lia].
Defined.

(** C5: [&s[a..b]] on a [str] never splits a character: when it succeeds,
    the bytes it returns are the UTF-8 encoding of a run of whole
    characters of [s].  On ["Здравствуйте"], [&hello[0..4]] is ["Зд"]
    (line 151) and [&hello[0..3]], whose end falls inside the 2-byte
    ["д"], panics with an invalid char boundary. *)
Theorem index_range_never_splits_chars (cs : list Z) (a b : nat) (t : list Z) :
  valid cs = true ->
  index_range (str_of_chars cs) a b = Ok t ->
  (exists p m q, cs = p ++ m ++ q /\ t = str_of_chars m) /\
  s9 = Ok (lit "Зд") /\
  index_range hello 0 3 = Panic InvalidBoundary.
Proof.
  intros Hv H. split; [|split; vm_compute; reflexivity].
  apply valid_Forall in Hv.
  exact (index_range_whole_chars cs a b t Hv H).
Qed.

Lemma index_range_never_splits_chars_witness :
  let cs := [0x417; 0x434; 0x440; 0x430; 0x432; 0x441;
             0x442; 0x432; 0x443; 0x439; 0x442; 0x435] in
  valid cs = true /\
  index_range (str_of_chars cs) 0 4 = Ok (lit "Зд") /\
  (exists p m q, cs = p ++ m ++ q /\ lit "Зд" = str_of_chars m) /\
  s9 = Ok (lit "Зд") /\
  index_range hello 0 3 = Panic InvalidBoundary.
Proof.
  intros cs.
  split; [vm_compute; reflexivity|].
  split; [vm_compute; reflexivity|].
  apply (index_range_never_splits_chars cs 0 4 (lit "Зд"));
    vm_compute; reflexivity.
Defined.

(** C6: [let z = x + &y] moves [x] (its binding is gone afterwards),
    leaves [y] readable and unchanged, and binds [z] to the bytes of [x]
    followed by those of [y], whose length is the sum of both lengths.
    For lines 116-120, [s5] is ["Hello, world!"], [s3] is moved and [s4]
    is still ["world!"]. *)
Theorem string_add_consumes_lhs (e : Locals.env) (z x y : string) (a b : list Z) :
  e !! x = Some a -> e !! y = Some b -> z <> x -> z <> y -> x <> y ->
  (exists e', Locals.exec (Locals.LetAdd z x y) e = Some e' /\
     e' !! z = Some (string_add a b) /\ e' !! x = None /\ e' !! y = Some b /\
     len (string_add a b) = (len a + len b)%nat) /\
  (exists e', Locals.run Locals.add_fragment ∅ = Some e' /\
     e' !! "s5"%string = Some (lit "Hello, world!") /\
     e' !! "s3"%string = None /\
     e' !! "s4"%string = Some (lit "world!") /\
     len (lit "Hello, world!") = (len (lit "Hello, ") + len (lit "world!"))%nat).
Proof.
  intros Hx Hy Hzx Hzy Hxy. split.
  - cbn [Locals.exec]. rewrite Hx, Hy.
    eexists; split; [reflexivity|].
    rewrite lookup_insert_eq, lookup_insert_ne by congruence.
    rewrite lookup_delete_eq, lookup_insert_ne by congruence.
    rewrite lookup_delete_ne by congruence.
    split; [reflexivity|]. split; [reflexivity|]. split; [exact Hy|].
    unfold len, string_add, push_str. apply length_app.
  - eexists; split; [vm_compute; reflexivity|].
    vm_compute. repeat split.
Qed.

Lemma string_add_consumes_lhs_witness :
  let e : Locals.env := <["s4"%string := lit "world!"]> {["s3"%string := lit "Hello, "]} in
  e !! "s3"%string = Some (lit "Hello, ") /\ e !! "s4"%string = Some (lit "world!") /\
  "s5"%string <> "s3"%string /\ "s5"%string <> "s4"%string /\ "s3"%string <> "s4"%string /\
  exists e', Locals.exec (Locals.LetAdd "s5" "s3" "s4") e = Some e' /\
     e' !! "s5"%string = Some (string_add (lit "Hello, ") (lit "world!")) /\
     e' !! "s3"%string = None /\ e' !! "s4"%string = Some (lit "world!") /\
     len (string_add (lit "Hello, ") (lit "world!")) =
       (len (lit "Hello, ") + len (lit "world!"))%nat.
Proof.
  intros e.
  split; [vm_compute; reflexivity|]. split; [vm_compute; reflexivity|].
  split; [discriminate|]. split; [discriminate|]. split; [discriminate|].
  apply (string_add_consumes_lhs e "s5" "s3" "s4" (lit "Hello, ") (lit "world!"));
    first [vm_compute; reflexivity | discriminate].
Defined.

(** C7: pushing [xs] one by one onto [Vec::new()] gives a vector of
    length [length xs] whose iterator yields [xs] in push order. *)
Theorem push_all_len_iter {T} (xs : list T) :
  Vec.len (Vec.push_all xs) = length xs /\ Vec.iter (Vec.push_all xs) = xs.
Proof.
  unfold Vec.push_all, Vec.new, Vec.len.
  rewrite push_all_app, app_nil_l, iter_id. split; reflexivity.
Qed.

(** C8: for a [str] with a non-ASCII character, iterating with [chars()]
    yields a different number of items than iterating with [bytes()];
    for ["नमस्ते"] the counting loops of lines 157-168 end with 6
    characters and more than 6 bytes. *)
Theorem chars_count_differs_from_bytes (cs : list Z) :
  valid cs = true -> existsb (fun c => 0x80 <=? c) cs = true ->
  length (chars (str_of_chars cs)) <> length (bytes (str_of_chars cs)) /\
  char_idx = Ok 6 /\ (exists n, byte_idx = Ok n /\ 6 < n).
Proof.
  intros Hv Hn. split.
  2:{ split; [vm_compute; reflexivity|]. exists 18. split; [vm_compute; reflexivity | lia]. }
  rewrite chars_str_of_chars by exact Hv.
  unfold bytes.
  assert (Hex : Exists (fun c => 0x80 <= c) cs).
  { apply existsb_exists in Hn as (c & Hin & Hc).
    apply Exists_exists. exists c. split.
    - apply list_elem_of_In. exact Hin.
    - apply Z.leb_le. exact Hc. }
  pose proof (length_str_of_chars_gt cs Hex). lia.
Qed.

Lemma chars_count_differs_from_bytes_witness :
  let cs := [0x928; 0x92E; 0x938; 0x94D; 0x924; 0x947] in
  valid cs = true /\ existsb (fun c => 0x80 <=? c) cs = true /\
  str_of_chars cs = namaste /\
  length (chars (str_of_chars cs)) <> length (bytes (str_of_chars cs)) /\
  char_idx = Ok 6 /\ (exists n, byte_idx = Ok n /\ 6 < n).
Proof.
  intros cs.
  split; [vm_compute; reflexivity|]. split; [vm_compute; reflexivity|].
  split; [vm_compute; reflexivity|].
  apply (chars_count_differs_from_bytes cs); vm_compute; reflexivity.
Defined.

(** C9: a [for i in &mut v] loop that updates [*i] in place keeps the
    length and the order: when it completes, the i-th element of the
    result is the update of the i-th element of the input.  Adding 50 to
    each element of [[100, 32, 57]] (lines 81-85) gives
    [[150, 82, 107]]. *)
Theorem iter_mut_in_place {T} (body : T -> result T) (s s' : list T) :
  Vec.iter_mut_update body s = Ok s' ->
  Forall2 (fun x x' => body x = Ok x') s s' /\ length s' = length s /\
  v4_after_loop = Ok [150; 82; 107].
Proof.
  intros H. split; [|split; [|vm_compute; reflexivity]].
  - revert s' H. induction s as [|x s IH]; intros s' H; cbn in H.
    + injection H as <-. constructor.
    + destruct (body x) as [x'|p] eqn:Ex; [|discriminate].
      destruct (Vec.iter_mut_update body s) as [s''|p] eqn:Es; [|discriminate].
      injection H as <-. constructor; [exact Ex | apply IH; reflexivity].
  - revert s' H. induction s as [|x s IH]; intros s' H; cbn in H.
    + injection H as <-. reflexivity.
    + destruct (body x) as [x'|p]; [|discriminate].
      destruct (Vec.iter_mut_update body s) as [s''|p] eqn:Es; [|discriminate].
      injection H as <-. cbn. f_equal. apply IH. reflexivity.
Qed.

Lemma iter_mut_in_place_witness :
  Vec.iter_mut_update add_50 [100; 32; 57] = Ok [150; 82; 107] /\
  Forall2 (fun x x' => add_50 x = Ok x') [100; 32; 57] [150; 82; 107] /\
  length [150; 82; 107] = length [100; 32; 57] /\
  v4_after_loop = Ok [150; 82; 107].
Proof.
  split; [vm_compute; reflexivity|].
  apply (iter_mut_in_place add_50 [100; 32; 57] [150; 82; 107]).
  vm_compute; reflexivity.
Defined.

(** C10: [x.push_str(y)] only borrows [y]: afterwards [y] is still bound
    to the same bytes, and [x] holds its old bytes followed by those of
    [y].  For lines 106-110, [s2] is still ["bar"] and [s1] is
    ["foobar"]. *)
Theorem push_str_keeps_source (e : Locals.env) (x y : string) (a b : list Z) :
  e !! x = Some a -> e !! y = Some b -> x <> y ->
  (exists e', Locals.exec (Locals.PushStr x y) e = Some e' /\
     e' !! x = Some (a ++ b) /\ e' !! y = Some b) /\
  (exists e', Locals.run Locals.push_str_fragment ∅ = Some e' /\
     e' !! "s2"%string = Some (lit "bar") /\
     e' !! "s1"%string = Some (lit "foobar")).
Proof.
  intros Hx Hy Hxy. split.
  - cbn [Locals.exec]. rewrite Hx, Hy.
    eexists; split; [reflexivity|].
    rewrite lookup_insert_eq, lookup_insert_ne by congruence.
    split; [reflexivity | exact Hy].
  - eexists; split; [vm_compute; reflexivity|].
    vm_compute. split; reflexivity.
Qed.

Lemma push_str_keeps_source_witness :
  let e : Locals.env := <["s2"%string := lit "bar"]> {["s1"%string := lit "foo"]} in
  e !! "s1"%string = Some (lit "foo") /\ e !! "s2"%string = Some (lit "bar") /\
  "s1"%string <> "s2"%string /\
  exists e', Locals.exec (Locals.PushStr "s1" "s2") e = Some e' /\
     e' !! "s1"%string = Some (lit "foo" ++ lit "bar") /\
     e' !! "s2"%string = Some (lit "bar").
Proof.
  intros e.
  split; [vm_compute; reflexivity|]. split; [vm_compute; reflexivity|].
  split; [discriminate|].
  apply (push_str_keeps_source e "s1" "s2" (lit "foo") (lit "bar"));
    first [vm_compute; reflexivity | discriminate].
Defined.

(* ================================================================== *)
(** * Further properties of the code *)

Module Extra.

(** Helpers. *)

Lemma encode_shape c : 0 <= c < 0x110000 ->
  exists b rest, encode_utf8 c = b :: rest /\
    (0 <= b < 0x80 \/ 0xC0 <= b < 0xF8) /\
    Forall (fun x => 0x80 <= x < 0xC0) rest.
Proof.
  intros Hc.
  destruct (Z.lt_ge_cases c 0x80).
  { rewrite encode_1 by lia. eexists _, _. split; [reflexivity|].
    split; [left; lia | constructor]. }
  destruct (Z.lt_ge_cases c 0x800).
  { rewrite encode_2 by lia. eexists _, _. split; [reflexivity|].
    split; [right; zsolve|].
    repeat (constructor; [zsolve|]); constructor. }
  destruct (Z.lt_ge_cases c 0x10000).
  { rewrite encode_3 by lia. eexists _, _. split; [reflexivity|].
    split; [right; zsolve|].
    repeat (constructor; [zsolve|]); constructor. }
  { rewrite encode_4 by lia. eexists _, _. split; [reflexivity|].
    split; [right; zsolve|].
    repeat (constructor; [zsolve|]); constructor. }
Qed.

Lemma boundary_at_char_start p q :
  Forall (fun c => is_scalar c = true) q ->
  is_char_boundary (str_of_chars p ++ str_of_chars q)
                   (length (str_of_chars p)) = true.
Proof.
  intros Hq. unfold is_char_boundary.
  destruct (length (str_of_chars p) =? 0)%nat eqn:E0; [reflexivity|].
  rewrite length_app.
  destruct Hq as [|c q Hc Hq].
  - cbn [str_of_chars length]. rewrite Nat.add_0_r, Nat.leb_refl.
    apply Nat.eqb_refl.
  - apply is_scalar_range in Hc.
    destruct (encode_shape c Hc) as (b & rest & Hb & Hr & _).
    cbn [str_of_chars]. rewrite Hb.
    rewrite (proj2 (Nat.leb_gt _ _)) by (cbn; lia).
    rewrite lookup_app_r, Nat.sub_diag by lia. cbn.
    unfold u8_as_i8. apply Z.geb_le.
    destruct Hr as [Hr | Hr].
    + rewrite (proj2 (Z.ltb_lt b 128)) by lia. lia.
    + rewrite (proj2 (Z.ltb_ge b 128)) by lia. lia.
Qed.

Lemma len_utf8_le_4 c : (len_utf8 c <= 4)%nat.
Proof. unfold len_utf8. repeat destruct (_ <? _); lia. Qed.

Lemma length_str_of_chars_le cs : (length (str_of_chars cs) <= 4 * length cs)%nat.
Proof.
  induction cs as [|c cs IH]; [cbn; lia|]. cbn [str_of_chars length].
  rewrite length_app, length_encode. pose proof (len_utf8_le_4 c). lia.
Qed.

Lemma valid_app a b : valid (a ++ b) = valid a && valid b.
Proof. unfold valid. apply forallb_app. Qed.

(** X1: decoding with [chars()] the UTF-8 encoding of any sequence of
    [char]s gives back that sequence. *)
Theorem chars_decodes_encoding (cs : list Z) :
  valid cs = true -> chars (str_of_chars cs) = cs.
Proof. apply chars_str_of_chars. Qed.

Lemma chars_decodes_encoding_witness :
  valid [0x24; 0x417; 0x928; 0x1F600] = true /\
  chars (str_of_chars [0x24; 0x417; 0x928; 0x1F600]) = [0x24; 0x417; 0x928; 0x1F600].
Proof.
  split; [vm_compute; reflexivity|].
  apply chars_decodes_encoding. vm_compute. reflexivity.
Defined.

(** X2: the encoding of a [char] is [len_utf8] bytes, each a [u8]: a
    leading byte (ASCII, or [0xC0..0xF7]) followed by continuation bytes
    [0x80..0xBF]. *)
Theorem encode_utf8_well_formed (c : Z) :
  is_scalar c = true ->
  length (encode_utf8 c) = len_utf8 c /\
  exists b rest, encode_utf8 c = b :: rest /\
    (0 <= b < 0x80 \/ 0xC0 <= b < 0xF8) /\
    Forall (fun x => 0x80 <= x < 0xC0) rest.
Proof.
  intros Hc. split; [apply length_encode|].
  apply encode_shape, is_scalar_range, Hc.
Qed.

Lemma encode_utf8_well_formed_witness :
  is_scalar 0x20AC = true /\
  length (encode_utf8 0x20AC) = len_utf8 0x20AC /\
  exists b rest, encode_utf8 0x20AC = b :: rest /\
    (0 <= b < 0x80 \/ 0xC0 <= b < 0xF8) /\
    Forall (fun x => 0x80 <= x < 0xC0) rest.
Proof.
  split; [vm_compute; reflexivity|].
  apply encode_utf8_well_formed. vm_compute. reflexivity.
Defined.

(** X3: on a [str], [is_char_boundary(k)] holds exactly at the byte
    offsets where a character starts, and at the end of the string. *)
Theorem char_boundary_iff (cs : list Z) (k : nat) :
  valid cs = true ->
  is_char_boundary (str_of_chars cs) k = true <->
  exists p q, cs = p ++ q /\ k = length (str_of_chars p).
Proof.
  intros Hv. apply valid_Forall in Hv. split.
  - apply boundary_decomp. exact Hv.
  - intros (p & q & -> & ->). rewrite str_of_chars_app.
    apply boundary_at_char_start. apply Forall_app in Hv as [_ Hq]. exact Hq.
Qed.

Lemma char_boundary_iff_witness :
  valid [0x417; 0x434] = true /\
  (is_char_boundary (str_of_chars [0x417; 0x434]) 2 = true <->
   exists p q, [0x417; 0x434] = p ++ q /\ 2%nat = length (str_of_chars p)).
Proof.
  split; [vm_compute; reflexivity|].
  apply char_boundary_iff. vm_compute. reflexivity.
Defined.

(** X4: slicing a [str] between two character starts always succeeds and
    returns exactly the encoding of the characters in between. *)
Theorem index_range_char_aligned (p m q : list Z) :
  valid (p ++ m ++ q) = true ->
  index_range (str_of_chars (p ++ m ++ q))
              (length (str_of_chars p))
              (length (str_of_chars p) + length (str_of_chars m))
  = Ok (str_of_chars m).
Proof.
  intros Hv. apply valid_Forall in Hv.
  pose proof Hv as Hmq. apply Forall_app in Hmq as [_ Hmq].
  pose proof Hmq as Hq. apply Forall_app in Hq as [_ Hq].
  assert (B1 : is_char_boundary (str_of_chars (p ++ m ++ q))
                 (length (str_of_chars p)) = true).
  { rewrite str_of_chars_app. apply boundary_at_char_start. exact Hmq. }
  assert (B2 : is_char_boundary (str_of_chars (p ++ m ++ q))
                 (length (str_of_chars p) + length (str_of_chars m)) = true).
  { rewrite app_assoc, str_of_chars_app, <- length_app, <- (str_of_chars_app p m).
    apply boundary_at_char_start. exact Hq. }
  unfold index_range. rewrite B1, B2, (proj2 (Nat.leb_le _ _)) by lia.
  cbn [andb]. f_equal.
  rewrite !str_of_chars_app, drop_app_length.
  replace (length (str_of_chars p) + length (str_of_chars m)
           - length (str_of_chars p))%nat
    with (length (str_of_chars m)) by lia.
  apply take_app_length.
Qed.

Lemma index_range_char_aligned_witness :
  valid ([0x417] ++ [0x434; 0x440] ++ [0x430]) = true /\
  index_range (str_of_chars ([0x417] ++ [0x434; 0x440] ++ [0x430]))
              (length (str_of_chars [0x417]))
              (length (str_of_chars [0x417]) + length (str_of_chars [0x434; 0x440]))
  = Ok (str_of_chars [0x434; 0x440]).
Proof.
  split; [vm_compute; reflexivity|].
  apply index_range_char_aligned. vm_compute. reflexivity.
Defined.

(** X5: [&s[a..b]] panics when the range is reversed ([b < a]) or runs
    past the end of the string ([b > s.len()]). *)
Theorem index_range_bad_range_panics (s : list Z) (a b : nat) :
  (b < a \/ length s < b)%nat ->
  index_range s a b = Panic InvalidBoundary.
Proof.
  intros H. unfold index_range.
  destruct (Nat.lt_ge_cases b a) as [Hba | Hab].
  - rewrite (proj2 (Nat.leb_gt _ _)) by lia. reflexivity.
  - destruct H as [H | H]; [lia|].
    assert (Hb : is_char_boundary s b = false).
    { unfold is_char_boundary.
      rewrite (proj2 (Nat.eqb_neq b 0)) by lia.
      rewrite (proj2 (Nat.leb_le _ _)) by lia.
      apply Nat.eqb_neq. lia. }
    rewrite Hb, andb_false_r. reflexivity.
Qed.

Lemma index_range_bad_range_panics_witness :
  (100 < 0 \/ length hello < 100)%nat /\
  index_range hello 0 100 = Panic InvalidBoundary.
Proof.
  split; [right; vm_compute; lia|].
  apply index_range_bad_range_panics. right. vm_compute. lia.
Defined.

(** X6: [push_str] keeps a [String] valid UTF-8: appending the encoding
    of [b] to the encoding of [a] decodes to [a] followed by [b], and the
    byte length is the sum of both. *)
Theorem push_str_decodes_to_concat (a b : list Z) :
  valid a = true -> valid b = true ->
  chars (push_str (str_of_chars a) (str_of_chars b)) = a ++ b /\
  len (push_str (str_of_chars a) (str_of_chars b)) =
    (len (str_of_chars a) + len (str_of_chars b))%nat.
Proof.
  intros Ha Hb. unfold push_str, len. split.
  - rewrite <- str_of_chars_app. apply chars_str_of_chars.
    rewrite valid_app, Ha, Hb. reflexivity.
  - apply length_app.
Qed.

Lemma push_str_decodes_to_concat_witness :
  let a := [0x66; 0x6F; 0x6F] in let b := [0x417] in
  valid a = true /\ valid b = true /\
  chars (push_str (str_of_chars a) (str_of_chars b)) = a ++ b /\
  len (push_str (str_of_chars a) (str_of_chars b)) =
    (len (str_of_chars a) + len (str_of_chars b))%nat.
Proof.
  intros a b.
  split; [vm_compute; reflexivity|]. split; [vm_compute; reflexivity|].
  apply push_str_decodes_to_concat; vm_compute; reflexivity.
Defined.

(** X7: the counting loops of lines 157-168, whose [i32] counter is
    checked for overflow, end with the number of characters for [chars()]
    and the number of bytes for [bytes()] when that number is at most
    [i32::MAX], and panic with an overflow otherwise; the byte count lies
    between the character count and four times it. *)
Theorem count_loops_chars_bytes (cs : list Z) :
  valid cs = true ->
  count_loop (chars (str_of_chars cs)) =
    (if Z.of_nat (length cs) <=? i32_max
     then Ok (Z.of_nat (length cs)) else Panic Overflow) /\
  count_loop (bytes (str_of_chars cs)) =
    (if Z.of_nat (length (str_of_chars cs)) <=? i32_max
     then Ok (Z.of_nat (length (str_of_chars cs))) else Panic Overflow) /\
  (length cs <= length (str_of_chars cs) <= 4 * length cs)%nat.
Proof.
  intros Hv. rewrite !count_loop_spec, chars_str_of_chars by exact Hv.
  unfold bytes. split; [reflexivity|]. split; [reflexivity|].
  pose proof (length_str_of_chars_ge cs). pose proof (length_str_of_chars_le cs). lia.
Qed.

Lemma count_loops_chars_bytes_witness :
  let cs := [0x928; 0x92E; 0x938; 0x94D; 0x924; 0x947] in
  valid cs = true /\
  count_loop (chars (str_of_chars cs)) =
    (if Z.of_nat (length cs) <=? i32_max
     then Ok (Z.of_nat (length cs)) else Panic Overflow) /\
  count_loop (bytes (str_of_chars cs)) =
    (if Z.of_nat (length (str_of_chars cs)) <=? i32_max
     then Ok (Z.of_nat (length (str_of_chars cs))) else Panic Overflow) /\
  (length cs <= length (str_of_chars cs) <= 4 * length cs)%nat.
Proof.
  intros cs.
  split; [vm_compute; reflexivity|].
  apply count_loops_chars_bytes. vm_compute. reflexivity.
Defined.


(** X8: [push] appends without moving anything: after [v.push(x)],
    [get(i)] is unchanged below the old length, is [Some(x)] at the old
    length, and is [None] beyond. *)
Theorem get_after_push {T} (s : list T) (x : T) (i : nat) :
  Vec.get (Vec.push s x) i =
  if (i <? Vec.len s)%nat then Vec.get s i
  else if (i =? Vec.len s)%nat then Some x else None.
Proof.
  unfold Vec.get, Vec.push, Vec.len.
  destruct (Nat.ltb_spec i (length s)) as [Hlt | Hge].
  - apply lookup_app_l. exact Hlt.
  - rewrite lookup_app_r by exact Hge.
    destruct (Nat.eqb_spec i (length s)) as [-> | Hne].
    + rewrite Nat.sub_diag. reflexivity.
    + apply lookup_ge_None_2. cbn. lia.
Qed.

(** X9: the loop [for i in &mut v { *i += 50 }] over [i32] elements
    completes, adding 50 to every element in place, exactly when no
    element exceeds [i32::MAX - 50]; otherwise it panics on the
    overflow. *)
Theorem add_50_loop (s : list Z) :
  Forall (fun x => i32_min <= x <= i32_max) s ->
  Vec.iter_mut_update add_50 s =
  if forallb (fun x => x <=? i32_max - 50) s
  then Ok (map (fun x => x + 50) s) else Panic Overflow.
Proof.
  unfold i32_min, i32_max. change (2 ^ 31) with 2147483648.
  induction 1 as [|x s Hx Hs IH]; [reflexivity|].
  cbn [Vec.iter_mut_update forallb map].
  unfold add_50 at 1, i32_add, i32_min, i32_max. change (2 ^ 31) with 2147483648.
  destruct (Z.leb_spec x (2147483648 - 1 - 50)) as [Hle | Hgt].
  - rewrite (proj2 (Z.leb_le _ (x + 50))) by lia.
    rewrite (proj2 (Z.leb_le (x + 50) _)) by lia.
    cbn [andb]. rewrite IH.
    destruct (forallb _ s); reflexivity.
  - rewrite (proj2 (Z.leb_gt (x + 50) _)) by lia.
    rewrite andb_false_r. reflexivity.
Qed.

Lemma add_50_loop_witness :
  Forall (fun x => i32_min <= x <= i32_max) [100; 2147483600; 57] /\
  Vec.iter_mut_update add_50 [100; 2147483600; 57] = Panic Overflow.
Proof.
  split; [repeat constructor; vm_compute; discriminate|].
  rewrite add_50_loop by (repeat constructor; vm_compute; discriminate).
  vm_compute. reflexivity.
Defined.

(** X10: a [for i in &mut v] loop stops at the first element whose
    update panics: that panic is the result, whatever follows. *)
Theorem iter_mut_first_panic {T} (body : T -> result T)
    (pre post : list T) (x : T) (p : panic) :
  Forall (fun y => exists y', body y = Ok y') pre ->
  body x = Panic p ->
  Vec.iter_mut_update body (pre ++ x :: post) = Panic p.
Proof.
  intros Hpre Hx. induction Hpre as [|y pre (y' & Hy) _ IH]; cbn.
  - rewrite Hx. reflexivity.
  - rewrite Hy, IH. reflexivity.
Qed.

Lemma iter_mut_first_panic_witness :
  Forall (fun y => exists y', add_50 y = Ok y') [100] /\
  add_50 i32_max = Panic Overflow /\
  Vec.iter_mut_update add_50 ([100] ++ i32_max :: [57]) = Panic Overflow.
Proof.
  split; [repeat constructor; eexists; vm_compute; reflexivity|].
  split; [vm_compute; reflexivity|].
  apply iter_mut_first_panic.
  - repeat constructor. eexists. vm_compute. reflexivity.
  - vm_compute. reflexivity.
Defined.

(** X11: [get(k')] after [insert(k, v)] is [Some(v)] for [k' = k] and
    what it was before for every other key. *)
Theorem get_after_insert (m : gmap (list Z) (list Z)) (k v k' : list Z) :
  HashMap.get (snd (HashMap.insert m k v)) k' =
  if decide (k = k') then Some v else HashMap.get m k'.
Proof.
  unfold HashMap.get, HashMap.insert. cbn [snd].
  case_decide as Hk.
  - subst. apply lookup_insert_eq.
  - apply lookup_insert_ne. exact Hk.
Qed.

(** X12: two [insert]s on the same key: the second hands back the first
    value and the map is as if only the second had happened. *)
Theorem insert_insert_same_key (m : gmap (list Z) (list Z)) (k v1 v2 : list Z) :
  HashMap.insert (snd (HashMap.insert m k v1)) k v2 =
  (Some v1, snd (HashMap.insert m k v2)).
Proof.
  unfold HashMap.insert. cbn [snd].
  rewrite lookup_insert_eq, insert_insert_eq. reflexivity.
Qed.

(** X13: [entry(k).or_insert(..)] is idempotent: a second call on the
    same key, whatever its default, returns the value of the first and
    leaves the map alone; after [insert(k, v)] it returns [v]. *)
Theorem entry_or_insert_idempotent (m : gmap (list Z) (list Z)) (k d1 d2 v : list Z) :
  (let '(r, m') := HashMap.entry_or_insert m k d1 in
   HashMap.entry_or_insert m' k d2 = (r, m')) /\
  HashMap.entry_or_insert (snd (HashMap.insert m k v)) k d2 =
  (v, snd (HashMap.insert m k v)).
Proof.
  unfold HashMap.entry_or_insert, HashMap.insert. cbn [snd]. split.
  - destruct (m !! k) as [old|] eqn:E.
    + rewrite E. reflexivity.
    + rewrite lookup_insert_eq. reflexivity.
  - rewrite lookup_insert_eq. reflexivity.
Qed.

(** X14: [format!("{}-{}-{}", a, b, c)] builds valid UTF-8 that decodes
    to the characters of [a], a hyphen, those of [b], a hyphen and those
    of [c]; its byte length is the sum of the arguments' plus 2. *)
Theorem format3_decodes (a b c : list Z) :
  valid a = true -> valid b = true -> valid c = true ->
  chars (format3 (str_of_chars a) (str_of_chars b) (str_of_chars c))
    = a ++ [0x2D] ++ b ++ [0x2D] ++ c /\
  len (format3 (str_of_chars a) (str_of_chars b) (str_of_chars c))
    = (len (str_of_chars a) + len (str_of_chars b) + len (str_of_chars c) + 2)%nat.
Proof.
  intros Ha Hb Hc. unfold format3, len.
  change (lit "-") with (str_of_chars [0x2D]). split.
  - rewrite <- !str_of_chars_app. apply chars_str_of_chars.
    rewrite !valid_app, Ha, Hb, Hc. reflexivity.
  - assert (H1 : length (str_of_chars [0x2D]) = 1%nat) by reflexivity.
    rewrite !length_app, H1. lia.
Qed.

Lemma format3_decodes_witness :
  let a := [0x74; 0x69; 0x63] in let b := [0x74; 0x61; 0x63] in
  let c := [0x74; 0x6F; 0x65] in
  valid a = true /\ valid b = true /\ valid c = true /\
  format3 (str_of_chars a) (str_of_chars b) (str_of_chars c) = lit "tic-tac-toe" /\
  chars (format3 (str_of_chars a) (str_of_chars b) (str_of_chars c))
    = a ++ [0x2D] ++ b ++ [0x2D] ++ c /\
  len (format3 (str_of_chars a) (str_of_chars b) (str_of_chars c))
    = (len (str_of_chars a) + len (str_of_chars b) + len (str_of_chars c) + 2)%nat.
Proof.
  intros a b c.
  split; [vm_compute; reflexivity|]. split; [vm_compute; reflexivity|].
  split; [vm_compute; reflexivity|]. split; [vm_compute; reflexivity|].
  apply format3_decodes; vm_compute; reflexivity.
Defined.

End Extra.
